(** * Retrieval engine of the presidential-speeches RAG notebook

    The notebook [rag-langchain-presidential-speeches.ipynb] splits speech
    transcripts into token windows, embeds them, stores them and retrieves the
    closest ones by cosine similarity.  The splitting, storing and searching
    are delegated to libraries; the spec describes them as a small in-process
    library (Chunker, Document Store, Similarity Index, Retrieval Pipeline),
    and those parts are modelled below from the spec.  The notebook's own
    ingest loop (cell 25) is embedded from the source. *)

From Stdlib Require Import List Arith Lia ZArith String Ascii Bool.
From Stdlib Require Import Sorting.Permutation Sorting.Sorted.
From Stdlib Require PrimFloat.
Import ListNotations.
Open Scope nat_scope.

(** ** Errors *)

Inductive error : Type :=
| InputError
| CollaboratorError.

(** * Chunker *)

Module Chunker.
Section Chunker.

Variable Tok : Type.
(** The caller-supplied tokenization rule and its inverse. *)
Variable tokenize : string -> list Tok.
Variable detokenize : list Tok -> string.

(** [input_ids[start:cur]] *)
Definition slice (start cur : nat) (ids : list Tok) : list Tok :=
  firstn (cur - start) (skipn start ids).

(** Modelled from the spec: the windowing loop of [Chunker.split] (§4.1),
    which the notebook delegates to LangChain's [TokenTextSplitter].
    One iteration per window: the window [start, cur) with
    [cur = min(start + max_tokens, N)] is emitted; the loop stops once a
    window reaches the end of the input, and otherwise the next window starts
    [max_tokens - overlap_tokens] tokens later.  The [fuel] bounds the number
    of iterations (each iteration advances by at least one token after
    validation); [bounds_fuel_enough] shows it never cuts the loop short. *)
Fixpoint window_bounds_from (fuel max_tokens overlap_tokens n start : nat)
  : list (nat * nat) :=
  match fuel with
  | O => []
  | S fuel' =>
      if start <? n then
        let cur := Nat.min (start + max_tokens) n in
        (start, cur) ::
          (if cur =? n then []
           else window_bounds_from fuel' max_tokens overlap_tokens n
                  (start + (max_tokens - overlap_tokens)))
      else []
  end.

Definition window_bounds (max_tokens overlap_tokens n : nat) : list (nat * nat) :=
  window_bounds_from n max_tokens overlap_tokens n 0.

(** The token windows of a token sequence. *)
Definition windows (max_tokens overlap_tokens : nat) (ids : list Tok)
  : list (list Tok) :=
  map (fun '(a, b) => slice a b ids)
      (window_bounds max_tokens overlap_tokens (List.length ids)).

(** Modelled from the spec: parameter validation of [Chunker.split]
    (§4.1 "raises an input error if max_tokens <= overlap_tokens or
    max_tokens <= 0", with the contract's [0 <= overlap_tokens]). *)
Definition valid_params (max_tokens overlap_tokens : Z) : bool :=
  negb ((max_tokens <=? 0)%Z || (max_tokens <=? overlap_tokens)%Z
        || (overlap_tokens <? 0)%Z).

(** Modelled from the spec: [split(text, max_tokens, overlap_tokens)]. *)
Definition split (text : string) (max_tokens overlap_tokens : Z)
  : error + list string :=
  if valid_params max_tokens overlap_tokens then
    inr (map detokenize
           (windows (Z.to_nat max_tokens) (Z.to_nat overlap_tokens)
              (tokenize text)))
  else inl InputError.

(** Number of windows for [m] remaining tokens: [0] for no token, one window
    when they fit, and otherwise one more per [max_tokens - overlap_tokens]
    step, rounded up. *)
Definition window_count (max_tokens overlap_tokens m : nat) : nat :=
  if m =? 0 then 0
  else if m <=? max_tokens then 1
  else 1 + (m - max_tokens + (max_tokens - overlap_tokens) - 1)
             / (max_tokens - overlap_tokens).

(** The closed form of the [i]-th window of the loop started at [start]. *)
Definition bound_at (max_tokens overlap_tokens n start i : nat) : nat * nat :=
  (start + i * (max_tokens - overlap_tokens),
   Nat.min (start + i * (max_tokens - overlap_tokens) + max_tokens) n).

(** The window count stated by the spec (§4.1),
    [ceil((N - overlap_tokens) / (max_tokens - overlap_tokens))], over the
    integers; [ceil(a / b)] is [(a + b - 1) / b] with floor division. *)
Definition spec_window_count (n max_tokens overlap_tokens : Z) : Z :=
  ((n - overlap_tokens) + (max_tokens - overlap_tokens) - 1)
    / (max_tokens - overlap_tokens).

End Chunker.

Arguments slice {Tok}.
Arguments windows {Tok}.
Arguments split {Tok}.

(** A tokenization rule with one token per character, used for the concrete
    checks below. *)
Definition char_tokens (s : string) : list ascii := list_ascii_of_string s.
Definition char_detok (l : list ascii) : string := string_of_list_ascii l.

End Chunker.

(** * Document Store *)

Module Store.
Section Store.

(** A vector component (a float of the embedding). *)
Variable V : Type.

(** A chunk of a source document (§3); the identifier of a stored chunk is
    its insertion position, returned by [add]. *)
Record Chunk : Type := mkChunk {
  text : string;
  ordinal : nat;
  of_total : nat;
  source_metadata : list (string * string)
}.

Record EmbeddedChunk : Type := mkEmbedded {
  ec_chunk : Chunk;
  vector : list V
}.

(** Modelled from the spec: the Document Store (§4.2), an append-only
    sequence of embedded chunks and the dimension set by the first insert. *)
Record DocumentStore : Type := mkStore {
  entries : list EmbeddedChunk;
  dimension : option nat
}.

Definition empty_store : DocumentStore := mkStore [] None.

(** Operations on the store: they read and replace it, or fail. *)
Definition M (A : Type) : Type := DocumentStore -> (error + A) * DocumentStore.

Definition ret {A} (x : A) : M A := fun st => (inr x, st).

Definition fail {A} (e : error) : M A := fun st => (inl e, st).

Definition bind {A B} (m : M A) (k : A -> M B) : M B :=
  fun st =>
    match m st with
    | (inl e, st') => (inl e, st')
    | (inr x, st') => k x st'
    end.

(** Runs [m] on the store and keeps its updates only when it succeeds. *)
Definition atomically {A} (m : M A) : M A :=
  fun st =>
    match m st with
    | (inl e, _) => (inl e, st)
    | (inr x, st') => (inr x, st')
    end.

(** Modelled from the spec: [add(chunk, vector) -> identifier] (§4.2).  The
    first insert establishes the dimension; a vector of another length is
    rejected with an input error before the store is touched. *)
Definition add (c : Chunk) (v : list V) : M nat :=
  fun st =>
    match dimension st with
    | Some d =>
        if List.length v =? d
        then (inr (List.length (entries st)),
              mkStore (entries st ++ [mkEmbedded c v]) (Some d))
        else (inl InputError, st)
    | None =>
        (inr (List.length (entries st)),
         mkStore (entries st ++ [mkEmbedded c v]) (Some (List.length v)))
    end.

(** Modelled from the spec: [all()] (§4.2) produces a lazy sequence, a
    generator over the store.  As a Python generator
    [n = len(self.entries); for i in range(n): yield self.entries[i]]
    would, the call fixes the number of chunks to yield ([upto]) and each
    step reads the live store at the next position ([pos]). *)
Record Cursor : Type := mkCursor {
  upto : nat;
  pos : nat
}.

Definition all : M Cursor :=
  fun st => (inr (mkCursor (List.length (entries st)) 0), st).

(** One step of the generator: the chunk at [pos] and the advanced
    generator, or [None] once [upto] chunks were yielded (or, were the
    position missing from the store, which the store never allows since it
    only grows). *)
Definition next (c : Cursor) : M (option (EmbeddedChunk * Cursor)) :=
  fun st =>
    if pos c <? upto c then
      match nth_error (entries st) (pos c) with
      | Some e => (inr (Some (e, mkCursor (upto c) (S (pos c)))), st)
      | None => (inr None, st)
      end
    else (inr None, st).

(** A caller iterating over a generator while adding chunks to the store:
    each [Pull] asks the generator for its next chunk, each [Insert] calls
    [add] (whose result, identifier or error, the caller ignores). *)
Inductive Action : Type :=
| Pull
| Insert (c : Chunk) (v : list V).

Fixpoint pulls (acts : list Action) : nat :=
  match acts with
  | [] => 0
  | Pull :: acts' => S (pulls acts')
  | Insert _ _ :: acts' => pulls acts'
  end.

(** The dimension invariant (§3): a store without an established dimension is
    empty, and with one every stored vector has that length. *)
Definition dims_ok (st : DocumentStore) : Prop :=
  match dimension st with
  | None => entries st = []
  | Some d => Forall (fun e => List.length (vector e) = d) (entries st)
  end.

(** [m] keeps the property [P] of the store. *)
Definition preserves {A} (P : DocumentStore -> Prop) (m : M A) : Prop :=
  forall st, P st -> P (snd (m st)).

(** [m] fails on every store. *)
Definition always_fails {A} (m : M A) : Prop :=
  forall st, exists e st', m st = (inl e, st').

End Store.

Arguments mkChunk : clear implicits.
Arguments mkEmbedded {V}.
Arguments ec_chunk {V}.
Arguments vector {V}.
Arguments mkStore {V}.
Arguments entries {V}.
Arguments dimension {V}.
Arguments empty_store {V}.
Arguments ret {V A}.
Arguments fail {V A}.
Arguments bind {V A B}.
Arguments atomically {V A}.
Arguments add {V}.
Arguments all {V}.
Arguments next {V}.
Arguments Pull {V}.
Arguments Insert {V}.
Arguments pulls {V}.
Arguments dims_ok {V}.
Arguments preserves {V A}.
Arguments always_fails {V A}.

Notation "x <- m ;; k" := (bind m (fun x => k))
  (at level 61, m at next level, right associativity).

(** The chunks the caller receives from the generator [c] while it performs
    [acts]. *)
Fixpoint consume {V : Type} (acts : list (Action V)) (c : Cursor) :
  M V (list (EmbeddedChunk V)) :=
  match acts with
  | [] => ret []
  | Pull :: acts' =>
      o <- next c ;;
      match o with
      | Some (e, c') => ys <- consume acts' c' ;; ret (e :: ys)
      | None => consume acts' c
      end
  | Insert ch v :: acts' => fun st => consume acts' c (snd (add ch v st))
  end.

End Store.

(** * Similarity Index *)

Module Index.
Import Store.
Section Index.

Variable V : Type.
(** Similarity scores and their comparison. *)
Variable Score : Type.
Variable cmp : Score -> Score -> comparison.
(** The cosine similarity of two vectors (§4.3). *)
Variable sim : list V -> list V -> Score.

Record SearchResult : Type := mkResult {
  result_chunk : Chunk;
  score : Score
}.

(** The score of every stored entry against the query, tagged with the
    entry's insertion position. *)
Fixpoint scored_from (q : list V) (i : nat) (es : list (EmbeddedChunk V))
  : list (nat * SearchResult) :=
  match es with
  | [] => []
  | e :: es' =>
      (i, mkResult (ec_chunk e) (sim q (vector e))) :: scored_from q (S i) es'
  end.

(** Ranking order: higher score first, and on equal scores the earlier
    insertion first. *)
Definition ranks_before (x y : nat * SearchResult) : bool :=
  match cmp (score (snd x)) (score (snd y)) with
  | Gt => true
  | Eq => fst x <=? fst y
  | Lt => false
  end.

Fixpoint insert_ranked (x : nat * SearchResult) (l : list (nat * SearchResult))
  : list (nat * SearchResult) :=
  match l with
  | [] => [x]
  | y :: l' => if ranks_before x y then x :: y :: l' else y :: insert_ranked x l'
  end.

Fixpoint rank (l : list (nat * SearchResult)) : list (nat * SearchResult) :=
  match l with
  | [] => []
  | x :: l' => insert_ranked x (rank l')
  end.

(** Modelled from the spec: [search(query_vector, k)] (§4.3): rejects a
    non-positive [k] and a query whose dimension differs from the store's;
    otherwise scores every stored vector and keeps the [k] best, ranked. *)
Definition search_ranked (q : list V) (k : nat) : M V (list (nat * SearchResult)) :=
  fun st =>
    if k =? 0 then (inl InputError, st)
    else
      match dimension st with
      | Some d => if List.length q =? d
                  then (inr (firstn k (rank (scored_from q 0 (entries st)))), st)
                  else (inl InputError, st)
      | None => (inr (firstn k (rank (scored_from q 0 (entries st)))), st)
      end.

Definition search (q : list V) (k : nat) : M V (list SearchResult) :=
  r <- search_ranked q k ;; ret (map snd r).

End Index.

Arguments mkResult {Score}.
Arguments result_chunk {Score}.
Arguments score {Score}.
Arguments scored_from {V Score}.
Arguments ranks_before {Score}.
Arguments insert_ranked {Score}.
Arguments rank {Score}.
Arguments search_ranked {V Score}.
Arguments search {V Score}.

End Index.

(** * Retrieval Pipeline *)

(** ** Cosine similarity

    Modelled from the spec (§4.3): [dot(a,b) / (‖a‖·‖b‖)], and [0] when
    either vector has zero norm, computed as the notebook's numbers are, in
    IEEE-754 binary64 (Rocq's primitive floats), the sums taken left to
    right. *)

Module Cosine.
Import PrimFloat.
Local Open Scope float_scope.

Definition dot (a b : list PrimFloat.float) : PrimFloat.float :=
  fold_left (fun acc '(x, y) => acc + x * y) (combine a b) 0.

Definition norm (a : list PrimFloat.float) : PrimFloat.float :=
  PrimFloat.sqrt (dot a a).

Definition cosine (a b : list PrimFloat.float) : PrimFloat.float :=
  let na := norm a in
  let nb := norm b in
  if (na =? 0) || (nb =? 0) then 0 else dot a b / (na * nb).

End Cosine.

Module Pipeline.
Import Store Chunker.
Section Pipeline.

Variable V : Type.
Variable Tok : Type.
Variable tokenize : string -> list Tok.
Variable detokenize : list Tok -> string.
(** The Embedder collaborator (§6); [None] is a failed call. *)
Variable embed : string -> option (list V).
(** The rendering of a document's metadata put before each of its chunks,
    given the chunk's ordinal and the document's chunk count. *)
Variable render : list (string * string) -> nat -> nat -> string.

Record Document : Type := mkDocument {
  doc_text : string;
  doc_metadata : list (string * string)
}.

Definition lift {A} (r : error + A) : M V A :=
  match r with
  | inl e => fail e
  | inr x => ret x
  end.

Definition embed_text (s : string) : M V (list V) :=
  match embed s with
  | Some v => ret v
  | None => fail CollaboratorError
  end.

(** Modelled from the spec (§4.4): a document's chunks, each one's text
    prefixed with the rendering of the document's metadata. *)
Definition prepare (mx o : Z) (d : Document) : error + list Chunk :=
  match split tokenize detokenize (doc_text d) mx o with
  | inl e => inl e
  | inr ws =>
      let total := List.length ws in
      inr (map (fun '(n, w) =>
                  mkChunk (String.append (render (doc_metadata d) n total) w)
                          n total (doc_metadata d))
               (combine (seq 1 total) ws))
  end.

(** Embeds and adds the chunks in order; returns how many were stored. *)
Fixpoint store_chunks (cs : list Chunk) : M V nat :=
  match cs with
  | [] => ret 0
  | c :: cs' =>
      v <- embed_text (text c) ;;
      _ <- add c v ;;
      n <- store_chunks cs' ;;
      ret (S n)
  end.

Fixpoint ingest_docs (mx o : Z) (docs : list Document) : M V nat :=
  match docs with
  | [] => ret 0
  | d :: ds =>
      cs <- lift (prepare mx o d) ;;
      n <- store_chunks cs ;;
      m <- ingest_docs mx o ds ;;
      ret (n + m)
  end.

(** Modelled from the spec: [ingest(documents, max_tokens, overlap_tokens)]
    (§4.4), all or nothing per call. *)
Definition ingest (docs : list Document) (mx o : Z) : M V nat :=
  atomically (ingest_docs mx o docs).

End Pipeline.

Arguments lift {V A}.
Arguments embed_text {V}.
Arguments prepare {Tok}.
Arguments store_chunks {V}.
Arguments ingest_docs {V Tok}.
Arguments ingest {V Tok}.

End Pipeline.

(** * The notebook's ingest loop (cell 25) *)

Module Notebook.

(** A row of [presidential_speeches.csv]; [Transcript] is [None] where
    pandas reads a missing value. *)
Record Row : Type := mkRow {
  Date : string;
  President : string;
  Party : string;
  Speech_Title : string;
  Summary : string;
  Transcript : option string
}.

(** LangChain's [Document(page_content=..., metadata=...)]. *)
Record Document : Type := mkDocument {
  page_content : string;
  metadata : list (string * string)
}.

Definition newline : string := String (ascii_of_nat 10) EmptyString.

(** Decimal rendering of a number, as in an f-string. *)
Fixpoint decimal_aux (fuel n : nat) (acc : string) : string :=
  match fuel with
  | O => acc
  | S fuel' =>
      let acc' := String (ascii_of_nat (48 + n mod 10)) acc in
      if n <? 10 then acc' else decimal_aux fuel' (n / 10) acc'
  end.

Definition decimal (n : nat) : string := decimal_aux (S n) n EmptyString.

(** [f"Date: {row['Date']}\nPresident: {row['President']}\nSpeech Title:
    {row['Speech Title']} (chunk {chunk_num} of {total_chunks})\n\n"] *)
Definition header (row : Row) (chunk_num total_chunks : nat) : string :=
  ("Date: " ++ Date row ++ newline ++
   "President: " ++ President row ++ newline ++
   "Speech Title: " ++ Speech_Title row ++
   " (chunk " ++ decimal chunk_num ++ " of " ++ decimal total_chunks ++ ")" ++
   newline ++ newline)%string.

(** [presidential_speeches_df['Transcript'].notnull()] *)
Definition notnull (row : Row) : bool :=
  match Transcript row with
  | Some _ => true
  | None => false
  end.

Section Ingest.

(** [text_splitter.split_text] *)
Variable split_text : string -> list string.

(** The body of the loop for one row. *)
Definition row_documents (row : Row) : list Document :=
  match Transcript row with
  | None => []
  | Some transcript =>
      let chunks := split_text transcript in
      let total_chunks := List.length chunks in
      map (fun chunk_num =>
             mkDocument
               (header row chunk_num total_chunks
                  ++ nth (chunk_num - 1) chunks EmptyString)%string
               [("source"%string, "local"%string)])
          (seq 1 total_chunks)
  end.

(** [documents], built by the loop over the rows with a transcript. *)
Definition documents (rows : list Row) : list Document :=
  flat_map row_documents (filter notnull rows).

End Ingest.

(** Reads a string of decimal digits back as a number (the inverse of
    [decimal], used to compare rendered chunk numbers). *)
Definition digits_value (ds : list ascii) : nat :=
  fold_left (fun v c => 10 * v + (nat_of_ascii c - 48)) ds 0.

Section Retrieval.

Variable V Score : Type.
Variable cmp : Score -> Score -> comparison.
(** [embedding_function.embed_query] *)
Variable embed_query : string -> list V.
(** One entry of [cosine_similarity([a], [b])]. *)
Variable cosine : list V -> list V -> Score.

(** The scan of [np.argmax]: the running maximum is replaced only by a
    strictly greater value, so the first maximal position wins. *)
Fixpoint argmax_from (best_i : nat) (best : Score) (i : nat) (l : list Score)
  : nat :=
  match l with
  | [] => best_i
  | x :: l' =>
      match cmp x best with
      | Gt => argmax_from i x (S i) l'
      | _ => argmax_from best_i best (S i) l'
      end
  end.

(** [np.argmax]; [None] on an empty sequence, where numpy raises
    [ValueError]. *)
Definition argmax (l : list Score) : option nat :=
  match l with
  | [] => None
  | x :: l' => Some (argmax_from 0 x 1 l')
  end.

(** Cells 17 and 20: embed every chunk and the question, score each chunk
    against the question, and take the chunk at [np.argmax] of the scores;
    [None] where [np.argmax] raises (no chunk). *)
Definition most_relevant_chunk (chunks : list string) (user_question : string)
  : option string :=
  let chunk_embeddings := map embed_query chunks in
  let prompt_embeddings := embed_query user_question in
  let similarities := map (cosine prompt_embeddings) chunk_embeddings in
  match argmax similarities with
  | Some closest_similarity_index => nth_error chunks closest_similarity_index
  | None => None
  end.

End Retrieval.

Arguments argmax_from {Score}.
Arguments argmax {Score}.
Arguments most_relevant_chunk {V Score}.

(** Python's [sep.join(items)]. *)
Fixpoint join (sep : string) (items : list string) : string :=
  match items with
  | [] => EmptyString
  | [x] => x
  | x :: rest => (x ++ sep ++ join sep rest)%string
  end.

Definition excerpt_separator : string :=
  (newline ++ newline ++
   "------------------------------------------------------" ++
   newline ++ newline)%string.

(** Cell 32: the contents of the first three retrieved documents, joined by
    the separator. *)
Definition relevant_excerpts (relevent_docs : list Document) : string :=
  join excerpt_separator (map page_content (firstn 3 relevent_docs)).

(** [s.replace("\n", "<br>")] *)
Fixpoint replace_newline (s : string) : string :=
  match s with
  | EmptyString => EmptyString
  | String c s' =>
      if Ascii.eqb c (ascii_of_nat 10)
      then ("<br>" ++ replace_newline s')%string
      else String c (replace_newline s')
  end.

(** Cell 22: the chat messages built by
    [presidential_speech_chat_completion]. *)
Record Message : Type := mkMessage {
  role : string;
  content : string
}.

Definition system_content : string :=
  "You are a presidential historian. Given the user's question and relevant excerpts from presidential speeches, answer the question by including direct quotes from presidential speeches. When using a quote, site the speech that it was from (ignoring the chunk)."%string.

Definition chat_messages (user_question relevant_excerpts : string) : list Message :=
  [mkMessage "system" system_content;
   mkMessage "user"
     ("User Question: " ++ user_question ++ newline ++ newline ++
      "Relevant Speech Excerpt(s):" ++ newline ++ newline ++ relevant_excerpts)%string].

(** The completion call itself is the Groq client's [create], taken as a
    parameter returning the contents of the choices; [choices[0]] raises
    on an empty list, modelled as [None]. *)
Definition presidential_speech_chat_completion
  (create : list Message -> string -> list string)
  (model user_question relevant_excerpts : string) : option string :=
  let chat_completion := create (chat_messages user_question relevant_excerpts) model in
  nth_error chat_completion 0.

Definition is_digit (c : ascii) : Prop := 48 <= nat_of_ascii c <= 57.

End Notebook.

(** * Concrete inputs for the checks *)

Module Examples.
Import Store Index Pipeline Notebook.

(** Dot product of integer vectors, a similarity for checks on unit-free
    integer vectors. *)
Definition dotZ (a b : list Z) : Z :=
  fold_right Z.add 0%Z (map (fun '(x, y) => (x * y)%Z) (combine a b)).

Definition chunk_named (name : string) : Chunk :=
  mkChunk name 1 1 [("id"%string, name)].

(** The spec's end-to-end search scenario, scaled to integers: A = [10, 0],
    B = [0, 10], C = [9, 1], stored in that order. *)
Definition store_ABC : DocumentStore Z :=
  snd ((_ <- add (chunk_named "A") [10; 0]%Z ;;
        _ <- add (chunk_named "B") [0; 10]%Z ;;
        add (chunk_named "C") [9; 1]%Z) empty_store).

(** A store whose dimension is established at 384. *)
Definition store_384 : DocumentStore Z :=
  snd (add (chunk_named "A") (repeat 0%Z 384) empty_store).

(** An Embedder that fails on the text "defg". *)
Definition embed_fails_on_defg (s : string) : option (list Z) :=
  if String.eqb s "defg" then None else Some [1%Z].

Definition no_render (md : list (string * string)) (n total : nat) : string :=
  EmptyString.

Definition speech_row (title : string) (transcript : option string) : Row :=
  mkRow "1881-03-04" "James Garfield" "Republican" title "" transcript.

End Examples.

(** * Proofs *)

Module ChunkerFacts.
Import Chunker.

Lemma window_count_step (mx o m : nat) :
  o < mx -> mx < m ->
  window_count mx o m = S (window_count mx o (m - (mx - o))).
Proof.
  intros Ho Hm. unfold window_count.
  set (s := mx - o).
  assert (Hs : 0 < s) by (unfold s; lia).
  replace (m =? 0) with false by (symmetry; apply Nat.eqb_neq; lia).
  replace (m <=? mx) with false by (symmetry; apply Nat.leb_gt; lia).
  replace (m - s =? 0) with false by (symmetry; apply Nat.eqb_neq; unfold s in *; lia).
  replace (m - mx + s - 1) with ((m - mx - 1) + 1 * s) by lia.
  rewrite Nat.div_add by lia.
  destruct (Nat.leb_spec (m - s) mx) as [Hle | Hgt].
  - rewrite Nat.div_small by lia. lia.
  - replace (m - s - mx + s - 1) with (m - mx - 1) by lia. lia.
Qed.

Lemma bounds_closed_form (mx o n : nat) :
  o < mx ->
  forall fuel start,
    window_count mx o (n - start) <= fuel ->
    window_bounds_from fuel mx o n start =
      map (bound_at mx o n start) (seq 0 (window_count mx o (n - start))).
Proof.
  intros Ho fuel. induction fuel as [|fuel IH]; intros start Hf.
  - simpl. replace (window_count mx o (n - start)) with 0 by lia. reflexivity.
  - simpl. destruct (Nat.ltb_spec start n) as [Hlt | Hge].
    + destruct (Nat.eqb_spec (Nat.min (start + mx) n) n) as [Heq | Hne].
      * assert (Hc : window_count mx o (n - start) = 1).
        { unfold window_count.
          replace (n - start =? 0) with false by (symmetry; apply Nat.eqb_neq; lia).
          replace (n - start <=? mx) with true by (symmetry; apply Nat.leb_le; lia).
          reflexivity. }
        rewrite Hc. unfold bound_at. simpl. do 2 f_equal; lia.
      * assert (Hm : mx < n - start) by lia.
        rewrite (window_count_step mx o (n - start) Ho Hm) in Hf |- *.
        replace (n - start - (mx - o)) with (n - (start + (mx - o))) in Hf |- * by lia.
        rewrite IH by lia.
        cbn [seq map]. f_equal.
        -- unfold bound_at. f_equal; lia.
        -- rewrite <- seq_shift, map_map. apply map_ext. intros i.
           unfold bound_at. f_equal; [lia | f_equal; lia].
    + replace (n - start) with 0 by lia. reflexivity.
Qed.

Lemma window_count_le (mx o m : nat) : o < mx -> window_count mx o m <= m.
Proof.
  intros Ho. unfold window_count.
  destruct (Nat.eqb_spec m 0); [lia|].
  destruct (Nat.leb_spec m mx); [lia|].
  assert (Hd : (m - mx + (mx - o) - 1) / (mx - o) <= m - mx).
  { apply Nat.Div0.div_le_upper_bound. nia. }
  lia.
Qed.

Lemma window_bounds_closed (mx o n : nat) :
  o < mx ->
  window_bounds mx o n = map (bound_at mx o n 0) (seq 0 (window_count mx o n)).
Proof.
  intros Ho. unfold window_bounds.
  rewrite bounds_closed_form by (auto; rewrite Nat.sub_0_r; apply window_count_le; auto).
  rewrite Nat.sub_0_r. reflexivity.
Qed.

Lemma nth_bounds (mx o n i : nat) :
  o < mx -> i < window_count mx o n ->
  nth_error (window_bounds mx o n) i = Some (bound_at mx o n 0 i).
Proof.
  intros Ho Hi. rewrite window_bounds_closed by exact Ho.
  rewrite nth_error_map, nth_error_seq.
  destruct (Nat.ltb_spec i (window_count mx o n)); [reflexivity | lia].
Qed.

Lemma nth_bounds_some (mx o n i : nat) (ab : nat * nat) :
  o < mx -> nth_error (window_bounds mx o n) i = Some ab ->
  i < window_count mx o n /\ ab = bound_at mx o n 0 i.
Proof.
  intros Ho H. rewrite window_bounds_closed in H by exact Ho.
  rewrite nth_error_map, nth_error_seq in H.
  destruct (Nat.ltb_spec i (window_count mx o n)); [|discriminate].
  simpl in H. injection H as <-. auto.
Qed.

Lemma length_windows {Tok} (mx o : nat) (ids : list Tok) :
  o < mx -> List.length (windows mx o ids) = window_count mx o (List.length ids).
Proof.
  intros Ho. unfold windows. rewrite length_map, window_bounds_closed by exact Ho.
  rewrite length_map, length_seq. reflexivity.
Qed.

Lemma nth_windows {Tok} (mx o : nat) (ids : list Tok) (i : nat) :
  nth_error (windows mx o ids) i =
  option_map (fun '(a, b) => slice a b ids)
             (nth_error (window_bounds mx o (List.length ids)) i).
Proof. unfold windows. apply nth_error_map. Qed.

Lemma nth_slice {Tok} (a b j : nat) (ids : list Tok) :
  a <= j < b -> nth_error (slice a b ids) (j - a) = nth_error ids j.
Proof.
  intros Hj. unfold slice. rewrite nth_error_firstn.
  destruct (Nat.ltb_spec (j - a) (b - a)); [|lia].
  rewrite nth_error_skipn. f_equal. lia.
Qed.

Lemma length_slice_le {Tok} (a b : nat) (ids : list Tok) :
  List.length (slice a b ids) <= b - a.
Proof. unfold slice. rewrite length_firstn. lia. Qed.

(** A window followed by another one is full and ends before the input does. *)
Lemma window_not_last (mx o n i : nat) :
  o < mx -> S i < window_count mx o n -> i * (mx - o) + mx < n.
Proof.
  intros Ho Hi. unfold window_count in Hi.
  destruct (Nat.eqb_spec n 0); [lia|].
  destruct (Nat.leb_spec n mx); [lia|].
  set (s := mx - o) in *. set (q := (n - mx + s - 1) / s) in *.
  assert (Hq : s * q <= n - mx + s - 1) by (apply Nat.Div0.mul_div_le).
  assert (S i <= q) by lia. nia.
Qed.

(** Every token position lies in some window. *)
Lemma window_covers (mx o n j : nat) :
  o < mx -> j < n ->
  exists i, i < window_count mx o n /\
    fst (bound_at mx o n 0 i) <= j < snd (bound_at mx o n 0 i).
Proof.
  intros Ho Hj. set (s := mx - o).
  destruct (Nat.ltb_spec j mx) as [Hlt | Hge].
  - exists 0. unfold bound_at, window_count. simpl.
    destruct (Nat.eqb_spec n 0); [lia|].
    destruct (n <=? mx); simpl; lia.
  - exists ((j - mx + s) / s).
    assert (Hs : s <> 0) by (unfold s; lia).
    pose proof (Nat.div_mod (j - mx + s) s Hs) as Hdm.
    pose proof (Nat.mod_upper_bound (j - mx + s) s Hs) as Hmod.
    assert (Hle : (j - mx + s) / s <= (n - mx + s - 1) / s)
      by (apply Nat.Div0.div_le_mono; lia).
    unfold window_count, bound_at. fold s. simpl.
    destruct (Nat.eqb_spec n 0); [lia|].
    destruct (Nat.leb_spec n mx); [lia|].
    split; [lia|]. split; [nia|].
    apply Nat.min_glb_lt; nia.
Qed.

(** The count is the spec's formula once the input is longer than the
    overlap. *)
Lemma window_count_formula (mx o n : nat) :
  o < mx -> o < n ->
  window_count mx o n = (n - o + (mx - o) - 1) / (mx - o).
Proof.
  intros Ho Hn. unfold window_count. set (s := mx - o).
  assert (Hs : s <> 0) by (unfold s; lia).
  destruct (Nat.eqb_spec n 0); [lia|].
  destruct (Nat.leb_spec n mx).
  - replace (n - o + s - 1) with ((n - o - 1) + 1 * s) by lia.
    rewrite Nat.div_add by exact Hs. rewrite Nat.div_small by (unfold s; lia). lia.
  - replace (n - o + s - 1) with ((n - mx + s - 1) + 1 * s) by (unfold s; lia).
    rewrite Nat.div_add by exact Hs. lia.
Qed.

Lemma window_bounds_from_width (fuel mx o n start : nat) :
  Forall (fun ab => snd ab - fst ab <= mx)
         (window_bounds_from fuel mx o n start).
Proof.
  revert start. induction fuel as [|fuel IH]; intros start; simpl; [constructor|].
  destruct (start <? n); [|constructor].
  constructor; [simpl; lia|].
  destruct (Nat.min (start + mx) n =? n); [constructor | apply IH].
Qed.

Lemma valid_params_spec (mx o : Z) :
  valid_params mx o = true <-> (0 <= o < mx)%Z.
Proof.
  unfold valid_params.
  rewrite negb_true_iff, !orb_false_iff, Z.leb_gt, Z.leb_gt, Z.ltb_ge. lia.
Qed.

End ChunkerFacts.

Import Chunker ChunkerFacts.

(** ** Chunker claims *)

(** C3 (as stated: refuted).  The claim says the number of windows is
    [ceil((N - overlap_tokens) / (max_tokens - overlap_tokens))] for every
    [N > 0].  A 5-token input with [max_tokens = 450], [overlap_tokens = 20]
    yields one window (it must, to cover the 5 tokens), while the formula
    gives [ceil(-15 / 430) = 0]. *)
Lemma C3_count_formula_fails_short_input :
  split char_tokens char_detok "hello" 450 20 = inr ["hello"%string] /\
  Z.of_nat (List.length ["hello"%string])
    <> spec_window_count (Z.of_nat (String.length "hello")) 450 20.
Proof. split; [reflexivity | vm_compute; discriminate]. Qed.

(** C3 (amended).  For valid parameters [max_tokens > overlap_tokens >= 0],
    [split] returns the detokenized windows; every token position of the
    input lies in some window, which holds that very token (no gaps); the
    number of windows is [ceil((N - overlap_tokens) / (max_tokens -
    overlap_tokens))] when [N > overlap_tokens], exactly one when
    [0 < N <= overlap_tokens], and zero for empty input. *)
Theorem C3_windows_cover_and_count {Tok} (tokenize : string -> list Tok)
  (detokenize : list Tok -> string) (text : string) (mx o : Z) :
  (0 <= o < mx)%Z ->
  let ids := tokenize text in
  let ws := windows (Z.to_nat mx) (Z.to_nat o) ids in
  split tokenize detokenize text mx o = inr (map detokenize ws) /\
  (forall j, j < List.length ids ->
     exists i a b w,
       nth_error (window_bounds (Z.to_nat mx) (Z.to_nat o) (List.length ids)) i
         = Some (a, b) /\
       nth_error ws i = Some w /\ a <= j < b /\
       nth_error w (j - a) = nth_error ids j) /\
  (List.length ids = 0 -> ws = []) /\
  (0 < List.length ids <= Z.to_nat o -> List.length ws = 1) /\
  (Z.to_nat o < List.length ids ->
     Z.of_nat (List.length ws) = spec_window_count (Z.of_nat (List.length ids)) mx o).
Proof.
  intros Hp ids ws.
  assert (Ho : Z.to_nat o < Z.to_nat mx) by lia.
  split; [| split; [| split; [| split]]].
  - unfold split. replace (valid_params mx o) with true
      by (symmetry; apply valid_params_spec; lia). reflexivity.
  - intros j Hj.
    destruct (window_covers _ _ _ j Ho Hj) as (i & Hi & Hab).
    destruct (bound_at (Z.to_nat mx) (Z.to_nat o) (List.length ids) 0 i)
      as [a b] eqn:Hb.
    exists i, a, b, (slice a b ids).
    assert (Hn : nth_error (window_bounds (Z.to_nat mx) (Z.to_nat o)
                              (List.length ids)) i = Some (a, b))
      by (rewrite nth_bounds by assumption; now rewrite Hb).
    simpl in Hab.
    split; [exact Hn|]. split.
    + unfold ws. rewrite nth_windows, Hn. reflexivity.
    + split; [exact Hab|]. apply nth_slice. exact Hab.
  - intros H0. apply length_zero_iff_nil. unfold ws.
    rewrite length_windows by exact Ho. rewrite H0. reflexivity.
  - intros H1. unfold ws. rewrite length_windows by exact Ho.
    unfold window_count.
    destruct (Nat.eqb_spec (List.length ids) 0); [lia|].
    destruct (Nat.leb_spec (List.length ids) (Z.to_nat mx)); lia.
  - intros Hn. unfold ws. rewrite length_windows by exact Ho.
    rewrite window_count_formula by assumption.
    rewrite Nat2Z.inj_div. unfold spec_window_count. f_equal; lia.
Qed.

(** C4.  For valid parameters, window [i+1] starts [max_tokens -
    overlap_tokens] tokens after window [i]; window [i] then ends
    [overlap_tokens] tokens after window [i+1] starts, and the last
    [overlap_tokens] tokens of window [i] are the first [overlap_tokens]
    tokens of window [i+1].  A 1000-token input with [max_tokens = 450],
    [overlap_tokens = 20] gives the three windows [0, 450), [430, 880) and
    [860, 1000), the last holding tokens 860 to 999 (140 tokens). *)
Theorem C4_consecutive_windows_overlap {Tok} (ids : list Tok) (mx o : nat) :
  o < mx ->
  (forall i a b a' b' w w',
     nth_error (window_bounds mx o (List.length ids)) i = Some (a, b) ->
     nth_error (window_bounds mx o (List.length ids)) (S i) = Some (a', b') ->
     nth_error (windows mx o ids) i = Some w ->
     nth_error (windows mx o ids) (S i) = Some w' ->
     a' = a + (mx - o) /\ b - a' = o /\ skipn (mx - o) w = firstn o w') /\
  (window_bounds 450 20 1000 = [(0, 450); (430, 880); (860, 1000)] /\
   List.length (windows 450 20 (seq 0 1000)) = 3 /\
   last (windows 450 20 (seq 0 1000)) [] = seq 860 140).
Proof.
  intros Ho. split.
  - intros i a b a' b' w w' Hb Hb' Hw Hw'.
    destruct (nth_bounds_some _ _ _ _ _ Ho Hb) as [Hi E].
    destruct (nth_bounds_some _ _ _ _ _ Ho Hb') as [Hi' E'].
    pose proof (window_not_last _ _ _ _ Ho Hi') as Hfull.
    unfold bound_at in E, E'. injection E as Ea Eb. injection E' as Ea' Eb'.
    rewrite nth_windows, Hb in Hw. rewrite nth_windows, Hb' in Hw'.
    simpl in Hw, Hw'. injection Hw as <-. injection Hw' as <-.
    assert (Hb_full : b = a + mx) by lia.
    assert (Hb'_ge : b' - a' >= o) by lia.
    split; [lia|]. split; [lia|].
    unfold slice. rewrite skipn_firstn_comm, skipn_skipn, firstn_firstn.
    replace (Nat.min o (b' - a')) with o by lia.
    replace (b - a - (mx - o)) with o by lia.
    replace (mx - o + a) with a' by lia. reflexivity.
  - split; [|split]; vm_compute; reflexivity.
Qed.

(** C7.  Every window that [split] produces holds at most [max_tokens]
    tokens (of the tokenization rule it splits with). *)
Theorem C7_window_at_most_max_tokens {Tok} (tokenize : string -> list Tok)
  (detokenize : list Tok -> string) (text : string) (mx o : Z)
  (ws : list string) :
  split tokenize detokenize text mx o = inr ws ->
  exists tws,
    tws = windows (Z.to_nat mx) (Z.to_nat o) (tokenize text) /\
    ws = map detokenize tws /\
    Forall (fun w => List.length w <= Z.to_nat mx) tws.
Proof.
  unfold split. destruct (valid_params mx o); [|discriminate].
  intros H. injection H as <-.
  eexists. split; [reflexivity|]. split; [reflexivity|].
  unfold windows, window_bounds. apply Forall_map.
  eapply Forall_impl; [| apply window_bounds_from_width].
  intros [a b] Hab. simpl in Hab.
  pose proof (length_slice_le a b (tokenize text)). lia.
Qed.

(** C8.  [split] raises an input error when [max_tokens <= overlap_tokens]
    or [max_tokens <= 0], and raises none when
    [max_tokens > overlap_tokens >= 0]. *)
Theorem C8_split_rejects_invalid_params {Tok} (tokenize : string -> list Tok)
  (detokenize : list Tok -> string) (text : string) (mx o : Z) :
  ((mx <= o)%Z \/ (mx <= 0)%Z ->
     split tokenize detokenize text mx o = inl InputError) /\
  ((0 <= o < mx)%Z -> (0 < mx)%Z ->
     exists ws, split tokenize detokenize text mx o = inr ws).
Proof.
  unfold split. split.
  - intros H. replace (valid_params mx o) with false; [reflexivity|].
    symmetry. apply not_true_iff_false. rewrite valid_params_spec. lia.
  - intros H _. replace (valid_params mx o) with true
      by (symmetry; apply valid_params_spec; lia).
    eexists. reflexivity.
Qed.

(** ** Store and pipeline facts *)

Module StoreFacts.
Import Store.
Section Facts.
Variable V : Type.

Lemma preserves_ret {A} (P : DocumentStore V -> Prop) (x : A) :
  preserves P (ret x).
Proof. intros st H. exact H. Qed.

Lemma preserves_fail {A} (P : DocumentStore V -> Prop) (e : error) :
  preserves P (@fail V A e).
Proof. intros st H. exact H. Qed.

Lemma preserves_bind {A B} (P : DocumentStore V -> Prop) (m : M V A)
  (k : A -> M V B) :
  preserves P m -> (forall x, preserves P (k x)) -> preserves P (bind m k).
Proof.
  intros Hm Hk st H. unfold bind.
  specialize (Hm st H). destruct (m st) as [[e | x] st']; simpl in *; auto.
  apply Hk. exact Hm.
Qed.

Lemma preserves_atomically {A} (P : DocumentStore V -> Prop) (m : M V A) :
  preserves P m -> preserves P (atomically m).
Proof.
  intros Hm st H. unfold atomically.
  specialize (Hm st H). destruct (m st) as [[e | x] st']; simpl in *; auto.
Qed.

Lemma add_dims_ok (c : Chunk) (v : list V) : preserves dims_ok (add c v).
Proof.
  intros [es [d|]] H; unfold dims_ok, add in *; simpl in *.
  - destruct (Nat.eqb_spec (List.length v) d); simpl; [|exact H].
    apply Forall_app. split; [exact H | constructor; [exact e | constructor]].
  - subst es. simpl. constructor; [reflexivity | constructor].
Qed.

Lemma add_keeps_dim (c : Chunk) (v : list V) (d : nat) :
  preserves (fun st => dimension st = Some d) (add c v).
Proof.
  intros [es [d'|]] H; simpl in H; [|discriminate]. injection H as ->.
  unfold add; simpl. destruct (List.length v =? d); reflexivity.
Qed.

Lemma always_fails_bind_l {A B} (m : M V A) (k : A -> M V B) :
  always_fails m -> always_fails (bind m k).
Proof.
  intros Hm st. destruct (Hm st) as (e & st' & E).
  exists e, st'. unfold bind. rewrite E. reflexivity.
Qed.

Lemma always_fails_bind_r {A B} (m : M V A) (k : A -> M V B) :
  (forall x, always_fails (k x)) -> always_fails (bind m k).
Proof.
  intros Hk st. unfold bind.
  destruct (m st) as [[e | x] st']; [eauto | apply Hk].
Qed.

(** The store only grows: [add] keeps every stored chunk in place. *)
Lemma add_extends (c : Chunk) (v : list V) (st : DocumentStore V) :
  exists extra, entries (snd (add c v st)) = entries st ++ extra.
Proof.
  unfold add. destruct (dimension st) as [d|]; [destruct (List.length v =? d)|];
    simpl; eauto using app_nil_r.
Qed.

Lemma consume_extends (acts : list (Action V)) (c : Cursor) (st : DocumentStore V) :
  exists extra, entries (snd (consume acts c st)) = entries st ++ extra.
Proof.
  revert c st. induction acts as [|[|ch v] acts IH]; intros c st.
  - exists []. rewrite app_nil_r. reflexivity.
  - cbn [consume]. unfold bind, next.
    destruct (pos c <? upto c); [destruct (nth_error (entries st) (pos c)) as [e|]|].
    + destruct (consume acts (mkCursor (upto c) (S (pos c))) st) as [[err | ys] st'] eqn:Hc;
        pose proof (IH (mkCursor (upto c) (S (pos c))) st) as IHc;
        rewrite Hc in IHc; exact IHc.
    + apply IH.
    + apply IH.
  - cbn [consume]. destruct (IH c (snd (add ch v st))) as [e1 H1].
    destruct (add_extends ch v st) as [e2 H2].
    exists (e2 ++ e1). rewrite H1, H2, app_assoc. reflexivity.
Qed.

Lemma skipn_nth_error {A} (l : list A) (p : nat) (e : A) :
  nth_error l p = Some e -> skipn p l = e :: skipn (S p) l.
Proof.
  revert p. induction l as [|x l IH]; intros [|p] H; try discriminate.
  - injection H as ->. reflexivity.
  - apply IH. exact H.
Qed.

(** A generator that is to yield the chunks [es] from position [p] on,
    run on any store that still starts with [es], yields the next ones of
    [es] in order, one per [Pull], whatever is inserted meanwhile. *)
Lemma consume_prefix (acts : list (Action V)) (es : list (EmbeddedChunk V)) (p : nat)
  (st : DocumentStore V) :
  (exists extra, entries st = es ++ extra) ->
  fst (consume acts (mkCursor (List.length es) p) st)
    = inr (firstn (pulls acts) (skipn p es)).
Proof.
  revert p st. induction acts as [|[|ch v] acts IH]; intros p st [extra Hst].
  - reflexivity.
  - cbn [consume pulls]. unfold bind at 1. unfold next at 1. cbn [upto pos].
    destruct (Nat.ltb_spec p (List.length es)) as [Hlt | Hge].
    + rewrite Hst, nth_error_app1 by exact Hlt.
      destruct (nth_error es p) as [e|] eqn:He;
        [| apply nth_error_None in He; lia].
      pose proof (IH (S p) st (ex_intro _ extra Hst)) as IHc.
      unfold bind.
      destruct (consume acts (mkCursor (List.length es) (S p)) st) as [r st'].
      cbn [fst] in IHc. subst r.
      rewrite (skipn_nth_error es p e He). reflexivity.
    + rewrite (IH p st (ex_intro _ extra Hst)), skipn_all2 by lia.
      rewrite !firstn_nil. reflexivity.
  - cbn [consume pulls]. apply IH.
    destruct (add_extends ch v st) as [e2 H2].
    exists (extra ++ e2). rewrite H2, Hst, app_assoc. reflexivity.
Qed.

End Facts.
End StoreFacts.

Module PipelineFacts.
Import Store Chunker Pipeline StoreFacts.
Section Facts.
Variable V Tok : Type.
Variable tokenize : string -> list Tok.
Variable detokenize : list Tok -> string.
Variable embed : string -> option (list V).
Variable render : list (string * string) -> nat -> nat -> string.

Lemma embed_text_preserves (P : DocumentStore V -> Prop) (s : string) :
  preserves P (embed_text embed s).
Proof.
  unfold embed_text. destruct (embed s); [apply preserves_ret | apply preserves_fail].
Qed.

Lemma lift_preserves {A} (P : DocumentStore V -> Prop) (r : error + A) :
  preserves P (lift r).
Proof. destruct r; [apply preserves_fail | apply preserves_ret]. Qed.

Lemma store_chunks_preserves (P : DocumentStore V -> Prop) (cs : list Chunk) :
  (forall c v, preserves P (add c v)) -> preserves P (store_chunks embed cs).
Proof.
  intros Hadd. induction cs as [|c cs IH]; simpl; [apply preserves_ret|].
  apply preserves_bind; [apply embed_text_preserves|]. intros v.
  apply preserves_bind; [apply Hadd|]. intros _.
  apply preserves_bind; [exact IH|]. intros n. apply preserves_ret.
Qed.

Lemma ingest_preserves (P : DocumentStore V -> Prop) docs mx o :
  (forall c v, preserves P (add c v)) ->
  preserves P (ingest tokenize detokenize embed render docs mx o).
Proof.
  intros Hadd. apply preserves_atomically.
  induction docs as [|d docs IH]; simpl; [apply preserves_ret|].
  apply preserves_bind; [apply lift_preserves|]. intros cs.
  apply preserves_bind; [apply store_chunks_preserves; exact Hadd|]. intros n.
  apply preserves_bind; [exact IH|]. intros m. apply preserves_ret.
Qed.

Lemma store_chunks_fails (cs : list Chunk) (c : Chunk) :
  In c cs -> embed (text c) = None -> always_fails (store_chunks embed cs).
Proof.
  intros Hin He. induction cs as [|c' cs IH]; [destruct Hin|].
  simpl. destruct Hin as [-> | Hin].
  - apply always_fails_bind_l. intros st. unfold embed_text. rewrite He.
    eexists; eexists; reflexivity.
  - apply always_fails_bind_r. intros v.
    apply always_fails_bind_r. intros _.
    apply always_fails_bind_l. exact (IH Hin).
Qed.

Lemma ingest_docs_fails docs mx o d cs c :
  In d docs -> prepare tokenize detokenize render mx o d = inr cs ->
  In c cs -> embed (text c) = None ->
  always_fails (ingest_docs tokenize detokenize embed render mx o docs).
Proof.
  intros Hd Hp Hc He. induction docs as [|d' docs IH]; [destruct Hd|].
  simpl. destruct Hd as [-> | Hd].
  - intros st. unfold bind at 1, lift. rewrite Hp. simpl.
    apply always_fails_bind_l. exact (store_chunks_fails cs c Hc He).
  - apply always_fails_bind_r. intros cs'.
    apply always_fails_bind_r. intros n.
    apply always_fails_bind_l. exact (IH Hd).
Qed.

End Facts.
End PipelineFacts.

Import Store Pipeline StoreFacts PipelineFacts.

(** ** Document Store and pipeline claims *)

(** C2.  [ingest] is all or nothing: whenever it fails, the store after the
    call is the store before it (same size); and when the Embedder fails on
    any chunk of any of the call's documents, the call fails. *)
Theorem C2_ingest_all_or_nothing {V Tok} (tokenize : string -> list Tok)
  (detokenize : list Tok -> string) (embed : string -> option (list V))
  (render : list (string * string) -> nat -> nat -> string)
  (docs : list Document) (mx o : Z) (st : DocumentStore V) :
  (forall e st',
     ingest tokenize detokenize embed render docs mx o st = (inl e, st') ->
     st' = st /\ List.length (entries st') = List.length (entries st)) /\
  (forall d cs c,
     In d docs -> prepare tokenize detokenize render mx o d = inr cs ->
     In c cs -> embed (text c) = None ->
     exists e, ingest tokenize detokenize embed render docs mx o st = (inl e, st)).
Proof.
  split.
  - intros e st' H. unfold ingest, atomically in H.
    destruct (ingest_docs tokenize detokenize embed render mx o docs st)
      as [[e' | n] st''].
    + injection H as _ <-. auto.
    + discriminate.
  - intros d cs c Hd Hp Hc He.
    destruct (ingest_docs_fails _ _ _ _ _ _ docs mx o d cs c Hd Hp Hc He st)
      as (e & st' & E).
    exists e. unfold ingest, atomically. rewrite E. reflexivity.
Qed.

(** C5.  All vectors of a store share its dimension: [add] and [ingest] keep
    the invariant [dims_ok] and never change an established dimension, the
    first [add] establishes it, [search] and [all] leave the store as it is,
    and an [add] whose vector length differs from the established dimension
    is an input error that leaves the store unchanged. *)
Theorem C5_dimension_invariant {V : Type} :
  (forall (st : DocumentStore V) c v,
     dims_ok st -> dims_ok (snd (add c v st))) /\
  (forall Tok (tokenize : string -> list Tok) detokenize embed render docs mx o
          (st : DocumentStore V),
     dims_ok st ->
     dims_ok (snd (ingest tokenize detokenize embed render docs mx o st))) /\
  (forall (st : DocumentStore V) c v,
     dimension st = None -> dimension (snd (add c v st)) = Some (List.length v)) /\
  (forall (st : DocumentStore V) c v d,
     dimension st = Some d -> dimension (snd (add c v st)) = Some d) /\
  (forall Tok (tokenize : string -> list Tok) detokenize embed render docs mx o
          (st : DocumentStore V) d,
     dimension st = Some d ->
     dimension (snd (ingest tokenize detokenize embed render docs mx o st)) = Some d) /\
  (forall Score cmp (sim : list V -> list V -> Score) q k (st : DocumentStore V),
     snd (Index.search cmp sim q k st) = st) /\
  (forall st : DocumentStore V, snd (all st) = st) /\
  (forall (st : DocumentStore V) c v d,
     dimension st = Some d -> List.length v <> d ->
     add c v st = (inl InputError, st)).
Proof.
  split; [| split; [| split; [| split; [| split; [| split; [| split]]]]]].
  - intros st c v. apply add_dims_ok.
  - intros. apply ingest_preserves; [intros; apply add_dims_ok | assumption].
  - intros [es dm] c v H. simpl in H. subst dm. reflexivity.
  - intros st c v d. apply add_keeps_dim.
  - intros. apply ingest_preserves; [intros; apply add_keeps_dim | assumption].
  - intros Score cmp sim q k st. unfold Index.search, Index.search_ranked, bind.
    destruct (k =? 0); [reflexivity|].
    destruct (dimension st) as [d|]; [destruct (List.length q =? d)|]; reflexivity.
  - reflexivity.
  - intros [es dm] c v d H Hne. simpl in H. subst dm. unfold add. simpl.
    apply Nat.eqb_neq in Hne. rewrite Hne. reflexivity.
Qed.

(** C9.  [all] is restartable and sees the store as of its call: two
    calls of [all] with nothing in between leave the store as it is and
    give two generators; each, consumed with any adds made meanwhile,
    yields the chunks stored at the call in insertion order, one per pull
    and never one added later, so both give identical sequences, and a
    generator pulled at least as often as there were chunks yields exactly
    those chunks.  A successful [add] appends its chunk at the end of the
    store and returns its position. *)
Theorem C9_all_restartable {V : Type} (st : DocumentStore V) :
  (exists c1 c2,
     (x <- all ;; y <- all ;; ret (x, y)) st = (inr (c1, c2), st) /\
     (forall acts1 acts2 : list (Action V),
        fst (consume acts1 c1 st) = inr (firstn (pulls acts1) (entries st)) /\
        fst (consume acts2 c2 (snd (consume acts1 c1 st)))
          = inr (firstn (pulls acts2) (entries st))) /\
     (forall acts : list (Action V),
        List.length (entries st) <= pulls acts ->
        fst (consume acts c1 st) = inr (entries st) /\
        fst (consume acts c2 st) = inr (entries st))) /\
  (forall c v id st',
     add c v st = (inr id, st') ->
     entries st' = entries st ++ [mkEmbedded c v] /\
     id = List.length (entries st)).
Proof.
  split.
  - set (c0 := mkCursor (List.length (entries st)) 0).
    assert (Hc : forall acts st', (exists extra, entries st' = entries st ++ extra) ->
               fst (consume acts c0 st') = inr (firstn (pulls acts) (entries st))).
    { intros acts st' Hst'. exact (consume_prefix V acts (entries st) 0 st' Hst'). }
    assert (H0 : exists extra, entries st = entries st ++ extra)
      by (exists []; rewrite app_nil_r; reflexivity).
    exists c0, c0. split; [reflexivity | split].
    + intros acts1 acts2. split; [apply Hc, H0|].
      apply Hc. destruct (consume_extends V acts1 c0 st) as [e1 H1].
      exists e1. exact H1.
    + intros acts Hp. rewrite (Hc acts st H0), firstn_all2 by exact Hp. auto.
  - intros c v id st' H. destruct st as [es [d|]]; unfold add in H; simpl in *.
    + destruct (List.length v =? d); [|discriminate].
      injection H as <- <-. auto.
    + injection H as <- <-. auto.
Qed.

(** ** Similarity Index facts *)

Module IndexFacts.
Import Store Index.
Section Facts.
Variable V Score : Type.
Variable cmp : Score -> Score -> comparison.
Variable sim : list V -> list V -> Score.
(** [cmp] is a comparison: swapping its arguments flips the result. *)
Hypothesis cmp_sym : forall a b, cmp b a = CompOpp (cmp a b).

Lemma ranks_before_total (x y : nat * SearchResult Score) :
  ranks_before cmp x y = false -> ranks_before cmp y x = true.
Proof.
  unfold ranks_before. intros H.
  rewrite (cmp_sym (score (snd x)) (score (snd y))).
  destruct (cmp (score (snd x)) (score (snd y))); simpl in *;
    [| reflexivity | discriminate].
  apply Nat.leb_gt in H. apply Nat.leb_le. lia.
Qed.

Lemma insert_ranked_perm x l : Permutation (insert_ranked cmp x l) (x :: l).
Proof.
  induction l as [|y l IH]; simpl; [reflexivity|].
  destruct (ranks_before cmp x y); [reflexivity|].
  eapply perm_trans; [apply perm_skip; exact IH | apply perm_swap].
Qed.

Lemma rank_perm l : Permutation (rank cmp l) l.
Proof.
  induction l as [|x l IH]; simpl; [reflexivity|].
  eapply perm_trans; [apply insert_ranked_perm | apply perm_skip; exact IH].
Qed.

Lemma insert_ranked_sorted x l : Sorted (fun x y => ranks_before cmp x y = true) l -> Sorted (fun x y => ranks_before cmp x y = true) (insert_ranked cmp x l).
Proof.
  induction l as [|y l IH]; intros H; simpl; [repeat constructor|].
  destruct (ranks_before cmp x y) eqn:E.
  - constructor; [exact H | constructor; exact E].
  - apply Sorted_inv in H as [Hl Hhd]. constructor; [apply IH; exact Hl|].
    destruct l as [|z l']; simpl.
    + constructor. apply ranks_before_total. exact E.
    + destruct (ranks_before cmp x z); constructor;
        [apply ranks_before_total; exact E | exact (HdRel_inv Hhd)].
Qed.

Lemma rank_sorted l : Sorted (fun x y => ranks_before cmp x y = true) (rank cmp l).
Proof.
  induction l as [|x l IH]; simpl; [constructor | apply insert_ranked_sorted; exact IH].
Qed.

Lemma sorted_nth {A} (P : A -> A -> Prop) (l : list A) (j : nat) (x y : A) :
  Sorted P l -> nth_error l j = Some x -> nth_error l (S j) = Some y -> P x y.
Proof.
  revert l. induction j as [|j IH]; intros l H Hx Hy;
    (destruct l as [|a l]; [discriminate|]).
  - simpl in Hx, Hy. injection Hx as <-.
    destruct l as [|b l]; [discriminate|]. simpl in Hy. injection Hy as <-.
    apply Sorted_inv in H as [_ Hhd]. exact (HdRel_inv Hhd).
  - apply Sorted_inv in H as [H _]. exact (IH l H Hx Hy).
Qed.

Lemma scored_from_fst q i es :
  map fst (scored_from sim q i es) = seq i (List.length es).
Proof.
  revert i. induction es as [|e es IH]; intros i; simpl; [reflexivity|].
  f_equal. apply IH.
Qed.

Lemma length_scored_from q i es :
  List.length (scored_from sim q i es) = List.length es.
Proof.
  revert i. induction es as [|e es IH]; intros i; simpl; [reflexivity|].
  f_equal. apply IH.
Qed.

Lemma scored_from_in q i es n r :
  In (n, r) (scored_from sim q i es) ->
  i <= n /\ exists e, nth_error es (n - i) = Some e /\
                      r = mkResult (ec_chunk e) (sim q (vector e)).
Proof.
  revert i. induction es as [|e es IH]; intros i; simpl; [tauto|].
  intros [H | H].
  - injection H as <- <-. split; [lia|]. exists e. rewrite Nat.sub_diag. auto.
  - destruct (IH (S i) H) as [Hle (e' & He & ->)]. split; [lia|].
    exists e'. replace (n - i) with (S (n - S i)) by lia. auto.
Qed.

Lemma search_ranked_ok (st : DocumentStore V) q k :
  0 < k -> (forall d, dimension st = Some d -> List.length q = d) ->
  search_ranked cmp sim q k st =
    (inr (firstn k (rank cmp (scored_from sim q 0 (entries st)))), st).
Proof.
  intros Hk Hd. unfold search_ranked.
  replace (k =? 0) with false by (symmetry; apply Nat.eqb_neq; lia).
  destruct (dimension st) as [d|]; [|reflexivity].
  rewrite (Hd d eq_refl), Nat.eqb_refl. reflexivity.
Qed.

Lemma rank_fst_nodup es q :
  NoDup (map fst (rank cmp (scored_from sim q 0 es))).
Proof.
  eapply Permutation_NoDup.
  - apply Permutation_sym, Permutation_map, rank_perm.
  - rewrite scored_from_fst. apply seq_NoDup.
Qed.

End Facts.
End IndexFacts.

Import Index IndexFacts.

(** ** Similarity Index claim *)

(** C1.  For a positive [k] and a query of the store's dimension, [search]
    succeeds without touching the store and returns [min(k, store size)]
    results, each a stored chunk with its similarity score; consecutive
    results have descending scores, and equal scores come in ascending
    insertion order (earliest-inserted first). *)
Theorem C1_search_sorted_min_k {V Score : Type}
  (cmp : Score -> Score -> comparison) (sim : list V -> list V -> Score)
  (cmp_sym : forall a b, cmp b a = CompOpp (cmp a b))
  (st : DocumentStore V) (q : list V) (k : nat) :
  0 < k ->
  (forall d, dimension st = Some d -> List.length q = d) ->
  exists ranked,
    search_ranked cmp sim q k st = (inr ranked, st) /\
    search cmp sim q k st = (inr (map snd ranked), st) /\
    List.length ranked = Nat.min k (List.length (entries st)) /\
    (forall i r, In (i, r) ranked ->
       exists e, nth_error (entries st) i = Some e /\
                 r = mkResult (ec_chunk e) (sim q (vector e))) /\
    (forall j x y, nth_error ranked j = Some x -> nth_error ranked (S j) = Some y ->
       cmp (score (snd x)) (score (snd y)) = Gt \/
       (cmp (score (snd x)) (score (snd y)) = Eq /\ fst x < fst y)).
Proof.
  intros Hk Hd.
  set (L := rank cmp (scored_from sim q 0 (entries st))).
  exists (firstn k L).
  pose proof (search_ranked_ok V Score cmp sim st q k Hk Hd) as Hs.
  split; [exact Hs|]. split.
  { unfold search, bind. rewrite Hs. reflexivity. }
  split.
  { rewrite length_firstn. unfold L.
    rewrite (Permutation_length (rank_perm Score cmp _)).
    rewrite length_scored_from. reflexivity. }
  split.
  { intros i r Hin.
    assert (Hin' : In (i, r) L).
    { rewrite <- (firstn_skipn k L). apply in_or_app. left. exact Hin. }
    apply (Permutation_in _ (rank_perm Score cmp _)) in Hin'.
    destruct (scored_from_in V Score sim q 0 _ i r Hin') as [_ (e & He & ->)].
    rewrite Nat.sub_0_r in He. eauto. }
  intros j x y Hx Hy.
  rewrite nth_error_firstn in Hx, Hy.
  destruct (Nat.ltb_spec j k); [|discriminate].
  destruct (Nat.ltb_spec (S j) k); [|discriminate].
  pose proof (sorted_nth _ L j x y
                (rank_sorted Score cmp cmp_sym _) Hx Hy) as Hr.
  assert (Hne : fst x <> fst y).
  { intros Heq.
    pose proof (rank_fst_nodup V Score cmp sim (entries st) q) as Hnd.
    fold L in Hnd. rewrite NoDup_nth_error in Hnd.
    assert (Hlt : j < List.length (map fst L)).
    { rewrite length_map. apply nth_error_Some. rewrite Hx. discriminate. }
    specialize (Hnd j (S j) Hlt). rewrite !nth_error_map, Hx, Hy in Hnd.
    simpl in Hnd. rewrite Heq in Hnd. specialize (Hnd eq_refl). lia. }
  unfold ranks_before in Hr.
  destruct (cmp (score (snd x)) (score (snd y))); [right | discriminate | left; reflexivity].
  split; [reflexivity|]. apply Nat.leb_le in Hr. lia.
Qed.

(** ** The notebook's ingest loop *)

Module NotebookFacts.
Import Notebook.

Lemma documents_cons (split_text : string -> list string) (r : Row) (rows : list Row) :
  documents split_text (r :: rows) =
  (if notnull r then row_documents split_text r else []) ++ documents split_text rows.
Proof. unfold documents. simpl. destruct (notnull r); reflexivity. Qed.

Lemma length_row_documents (split_text : string -> list string) (r : Row) :
  List.length (row_documents split_text r) =
  match Transcript r with
  | Some t => List.length (split_text t)
  | None => 0
  end.
Proof.
  unfold row_documents. destruct (Transcript r); [|reflexivity].
  rewrite length_map, length_seq. reflexivity.
Qed.

End NotebookFacts.

Import Notebook NotebookFacts.

(** C10.  In the notebook's ingest loop a row whose transcript is missing
    adds no document (removing it changes nothing), the number of documents
    is the total chunk count of the rows with a transcript, and every
    document is one chunk [n] (1-based) of a row's transcript, prefixed with
    the header naming that row and "chunk n of total". *)
Theorem C10_null_transcripts_skipped (split_text : string -> list string)
  (rows : list Row) :
  (forall pre r post,
     Transcript r = None ->
     documents split_text (pre ++ r :: post) = documents split_text (pre ++ post)) /\
  List.length (documents split_text rows) =
    list_sum (map (fun r => match Transcript r with
                            | Some t => List.length (split_text t)
                            | None => 0
                            end) rows) /\
  (forall doc, In doc (documents split_text rows) ->
     exists r t n,
       In r rows /\ Transcript r = Some t /\
       1 <= n <= List.length (split_text t) /\
       page_content doc =
         (header r n (List.length (split_text t))
            ++ nth (n - 1) (split_text t) EmptyString)%string).
Proof.
  split; [| split].
  - intros pre r post Hr. unfold documents. rewrite !filter_app. simpl.
    unfold notnull at 2. rewrite Hr. reflexivity.
  - induction rows as [|r rows IH]; [reflexivity|].
    rewrite documents_cons, length_app, IH. simpl. f_equal.
    unfold notnull. destruct (Transcript r) eqn:E; [|reflexivity].
    rewrite length_row_documents, E. reflexivity.
  - intros doc Hin. unfold documents in Hin.
    apply in_flat_map in Hin as (r & Hr & Hdoc).
    apply filter_In in Hr as [Hr _].
    unfold row_documents in Hdoc.
    destruct (Transcript r) as [t|] eqn:E; [|destruct Hdoc].
    apply in_map_iff in Hdoc as (n & <- & Hn).
    apply in_seq in Hn.
    exists r, t, n. repeat split; auto; lia.
Qed.

(** * Witnesses *)

Import Examples.

Lemma C1_search_sorted_min_k_witness :
  search Z.compare dotZ [1; 0]%Z 2 store_ABC
    = (inr [mkResult (chunk_named "A") 10%Z; mkResult (chunk_named "C") 9%Z],
       store_ABC) /\
  exists ranked,
    search_ranked Z.compare dotZ [1; 0]%Z 2 store_ABC = (inr ranked, store_ABC) /\
    search Z.compare dotZ [1; 0]%Z 2 store_ABC = (inr (map snd ranked), store_ABC) /\
    List.length ranked = Nat.min 2 (List.length (entries store_ABC)) /\
    (forall i r, In (i, r) ranked ->
       exists e, nth_error (entries store_ABC) i = Some e /\
                 r = mkResult (ec_chunk e) (dotZ [1; 0]%Z (vector e))) /\
    (forall j x y, nth_error ranked j = Some x -> nth_error ranked (S j) = Some y ->
       Z.compare (score (snd x)) (score (snd y)) = Gt \/
       (Z.compare (score (snd x)) (score (snd y)) = Eq /\ fst x < fst y)).
Proof.
  split; [vm_compute; reflexivity|].
  apply (C1_search_sorted_min_k Z.compare dotZ Z.compare_antisym
           store_ABC [1; 0]%Z 2).
  - lia.
  - intros d H. vm_compute in H. injection H as <-. reflexivity.
Defined.

Lemma C3_windows_cover_and_count_witness :
  split char_tokens char_detok "abcdefghij" 4 1
    = inr ["abcd"%string; "defg"%string; "ghij"%string] /\
  let ids := char_tokens "abcdefghij" in
  let ws := windows (Z.to_nat 4) (Z.to_nat 1) ids in
  split char_tokens char_detok "abcdefghij" 4 1 = inr (map char_detok ws) /\
  (forall j, j < List.length ids ->
     exists i a b w,
       nth_error (window_bounds (Z.to_nat 4) (Z.to_nat 1) (List.length ids)) i
         = Some (a, b) /\
       nth_error ws i = Some w /\ a <= j < b /\
       nth_error w (j - a) = nth_error ids j) /\
  (List.length ids = 0 -> ws = []) /\
  (0 < List.length ids <= Z.to_nat 1 -> List.length ws = 1) /\
  (Z.to_nat 1 < List.length ids ->
     Z.of_nat (List.length ws) = spec_window_count (Z.of_nat (List.length ids)) 4 1).
Proof.
  split; [vm_compute; reflexivity|].
  apply (C3_windows_cover_and_count char_tokens char_detok "abcdefghij" 4 1).
  lia.
Defined.

Lemma C4_consecutive_windows_overlap_witness :
  (forall i a b a' b' w w',
     nth_error (window_bounds 450 20 (List.length (seq 0 1000))) i = Some (a, b) ->
     nth_error (window_bounds 450 20 (List.length (seq 0 1000))) (S i) = Some (a', b') ->
     nth_error (windows 450 20 (seq 0 1000)) i = Some w ->
     nth_error (windows 450 20 (seq 0 1000)) (S i) = Some w' ->
     a' = a + (450 - 20) /\ b - a' = 20 /\ skipn (450 - 20) w = firstn 20 w') /\
  (window_bounds 450 20 1000 = [(0, 450); (430, 880); (860, 1000)] /\
   List.length (windows 450 20 (seq 0 1000)) = 3 /\
   last (windows 450 20 (seq 0 1000)) [] = seq 860 140).
Proof.
  apply (C4_consecutive_windows_overlap (seq 0 1000) 450 20). lia.
Defined.

Lemma C7_window_at_most_max_tokens_witness :
  exists tws,
    tws = windows (Z.to_nat 4) (Z.to_nat 1) (char_tokens "abcdefghij") /\
    ["abcd"%string; "defg"%string; "ghij"%string] = map char_detok tws /\
    Forall (fun w => List.length w <= Z.to_nat 4) tws.
Proof.
  apply (C7_window_at_most_max_tokens char_tokens char_detok "abcdefghij" 4 1).
  vm_compute. reflexivity.
Defined.

Lemma C8_split_rejects_invalid_params_witness :
  split char_tokens char_detok "hello" 20 20 = inl InputError /\
  split char_tokens char_detok "hello" 0 (-1) = inl InputError /\
  exists ws, split char_tokens char_detok "hello" 450 20 = inr ws.
Proof.
  split; [| split].
  - apply (proj1 (C8_split_rejects_invalid_params char_tokens char_detok "hello" 20 20)).
    lia.
  - apply (proj1 (C8_split_rejects_invalid_params char_tokens char_detok "hello" 0 (-1))).
    lia.
  - apply (proj2 (C8_split_rejects_invalid_params char_tokens char_detok "hello" 450 20));
      lia.
Defined.

Lemma C2_ingest_all_or_nothing_witness :
  exists e,
    ingest char_tokens char_detok embed_fails_on_defg no_render
      [Pipeline.mkDocument "ab" []; Pipeline.mkDocument "abcdefghij" []] 4 1 empty_store
    = (inl e, empty_store).
Proof.
  apply (proj2 (C2_ingest_all_or_nothing char_tokens char_detok embed_fails_on_defg
                  no_render [Pipeline.mkDocument "ab" []; Pipeline.mkDocument "abcdefghij" []] 4 1
                  empty_store)
           (Pipeline.mkDocument "abcdefghij" [])
           [mkChunk "abcd" 1 3 []; mkChunk "defg" 2 3 []; mkChunk "ghij" 3 3 []]
           (mkChunk "defg" 2 3 [])).
  - simpl. auto.
  - vm_compute. reflexivity.
  - simpl. auto.
  - vm_compute. reflexivity.
Defined.

Lemma C5_dimension_invariant_witness :
  dimension store_384 = Some 384 /\
  add (chunk_named "B") (repeat 0%Z 300) store_384 = (inl InputError, store_384).
Proof.
  split; [vm_compute; reflexivity|].
  apply (proj2 (proj2 (proj2 (proj2 (proj2 (proj2 (proj2
           (@C5_dimension_invariant Z)))))))
          store_384 (chunk_named "B") (repeat 0%Z 300) 384).
  - vm_compute. reflexivity.
  - rewrite repeat_length. lia.
Defined.

Lemma C9_all_restartable_witness :
  let acts := [Pull; Insert (chunk_named "D") [1; 1]%Z; Pull; Pull; Pull] in
  exists c1 c2,
    (x <- all ;; y <- all ;; ret (x, y)) store_ABC = (inr (c1, c2), store_ABC) /\
    fst (consume acts c1 store_ABC) = inr (entries store_ABC) /\
    fst (consume acts c2 (snd (consume acts c1 store_ABC))) = inr (entries store_ABC) /\
    List.length (entries (snd (consume acts c1 store_ABC))) = 4.
Proof.
  intros acts.
  destruct (proj1 (C9_all_restartable store_ABC)) as (c1 & c2 & Hall & Hseq & Hdrain).
  exists c1, c2. split; [exact Hall|]. split; [|split].
  - apply (proj1 (Hdrain acts ltac:(vm_compute; lia))).
  - rewrite (proj2 (Hseq acts acts)). reflexivity.
  - vm_compute in Hall. injection Hall as <- <-. reflexivity.
Defined.

Lemma C10_null_transcripts_skipped_witness :
  documents (fun t => [t; t])
    [speech_row "Inaugural Address" (Some "text"%string); speech_row "Lost" None]
  = documents (fun t => [t; t]) [speech_row "Inaugural Address" (Some "text"%string)] /\
  List.length (documents (fun t => [t; t])
    [speech_row "Inaugural Address" (Some "text"%string); speech_row "Lost" None]) = 2.
Proof.
  split.
  - apply (proj1 (C10_null_transcripts_skipped (fun t => [t; t]) [])
             [speech_row "Inaugural Address" (Some "text"%string)]
             (speech_row "Lost" None) []).
    reflexivity.
  - rewrite (proj1 (proj2 (C10_null_transcripts_skipped (fun t => [t; t])
               [speech_row "Inaugural Address" (Some "text"%string);
                speech_row "Lost" None]))).
    reflexivity.
Defined.

(** ** Cosine similarity claim *)

Section CosineClaim.
Import Cosine PrimFloat.
Local Open Scope float_scope.






End CosineClaim.

(** * Further properties of the notebook's code *)

Module RetrievalFacts.
Import Notebook.
Section Facts.
Variable Score : Type.
Variable cmp : Score -> Score -> comparison.
Hypothesis cmp_sym : forall a b, cmp b a = CompOpp (cmp a b).
Hypothesis cmp_trans : forall a b c, cmp a b = Gt -> cmp b c <> Lt -> cmp a c = Gt.

Lemma cmp_refl_not_lt (x : Score) : cmp x x <> Lt.
Proof. intros H. pose proof (cmp_sym x x) as E. rewrite H in E. discriminate. Qed.

(** The scan's state: [best] sits at [best_i] in the scanned prefix, is at
    least every scanned value, and is strictly above every value before it. *)
Lemma argmax_from_inv (l pre : list Score) (bi : nat) (b : Score) :
  nth_error pre bi = Some b ->
  (forall y, In y pre -> cmp b y <> Lt) ->
  (forall j y, j < bi -> nth_error pre j = Some y -> cmp y b = Lt) ->
  exists b',
    nth_error (pre ++ l) (argmax_from cmp bi b (List.length pre) l) = Some b' /\
    (forall y, In y (pre ++ l) -> cmp b' y <> Lt) /\
    (forall j y, j < argmax_from cmp bi b (List.length pre) l ->
                 nth_error (pre ++ l) j = Some y -> cmp y b' = Lt).
Proof.
  revert pre bi b. induction l as [|x l IH]; intros pre bi b Hb Hge Hlt.
  - rewrite app_nil_r. simpl. eauto.
  - replace (pre ++ x :: l) with ((pre ++ [x]) ++ l) by (rewrite <- app_assoc; reflexivity).
    assert (Hbi : bi < List.length pre)
      by (apply nth_error_Some; rewrite Hb; discriminate).
    simpl. replace (S (List.length pre)) with (List.length (pre ++ [x]))
      by (rewrite length_app; simpl; lia).
    destruct (cmp x b) eqn:E.
    + apply IH.
      * rewrite nth_error_app1 by exact Hbi. exact Hb.
      * intros y Hy. apply in_app_or in Hy as [Hy | [<- | []]]; [auto|].
        rewrite cmp_sym, E. discriminate.
      * intros j y Hj Hy. rewrite nth_error_app1 in Hy by lia. eauto.
    + apply IH.
      * rewrite nth_error_app1 by exact Hbi. exact Hb.
      * intros y Hy. apply in_app_or in Hy as [Hy | [<- | []]]; [auto|].
        rewrite cmp_sym, E. discriminate.
      * intros j y Hj Hy. rewrite nth_error_app1 in Hy by lia. eauto.
    + apply IH.
      * rewrite nth_error_app2 by lia. rewrite Nat.sub_diag. reflexivity.
      * intros y Hy. apply in_app_or in Hy as [Hy | [<- | []]].
        -- rewrite (cmp_trans x b y E (Hge y Hy)). discriminate.
        -- apply cmp_refl_not_lt.
      * intros j y Hj Hy. rewrite nth_error_app1 in Hy by lia.
        rewrite cmp_sym, (cmp_trans x b y E (Hge y (nth_error_In _ _ Hy))).
        reflexivity.
Qed.

Lemma argmax_spec (l : list Score) :
  l <> [] ->
  exists i x,
    argmax cmp l = Some i /\ nth_error l i = Some x /\
    (forall y, In y l -> cmp x y <> Lt) /\
    (forall j y, j < i -> nth_error l j = Some y -> cmp y x = Lt).
Proof.
  destruct l as [|x l]; [congruence|]. intros _.
  destruct (argmax_from_inv l [x] 0 x eq_refl) as (b & Hb & Hge & Hlt).
  - intros y [<- | []]. apply cmp_refl_not_lt.
  - intros j y Hj. lia.
  - exists (argmax_from cmp 0 x 1 l), b. simpl in *. auto.
Qed.

End Facts.
End RetrievalFacts.

Import RetrievalFacts.

(** X1.  [np.argmax] over a non-empty sequence of scores (compared by a
    total preorder) returns a position holding a maximal score, and every
    earlier position holds a strictly smaller score: the first maximum wins.
    An empty sequence has no argmax. *)
Theorem X1_argmax_first_maximum {Score : Type} (cmp : Score -> Score -> comparison)
  (cmp_sym : forall a b, cmp b a = CompOpp (cmp a b))
  (cmp_trans : forall a b c, cmp a b = Gt -> cmp b c <> Lt -> cmp a c = Gt)
  (l : list Score) :
  argmax cmp [] = None /\
  (l <> [] ->
   exists i x,
     argmax cmp l = Some i /\ nth_error l i = Some x /\
     (forall y, In y l -> cmp x y <> Lt) /\
     (forall j y, j < i -> nth_error l j = Some y -> cmp y x = Lt)).
Proof.
  split; [reflexivity|]. apply argmax_spec; assumption.
Qed.

(** X2.  The notebook's most relevant chunk (cells 17 and 20): with at least
    one chunk, it is a chunk of the list whose similarity to the question is
    at least that of every chunk, and every chunk before it scores strictly
    lower; with no chunk there is none ([np.argmax] raises). *)
Theorem X2_most_relevant_chunk_is_first_best {V Score : Type}
  (cmp : Score -> Score -> comparison)
  (cmp_sym : forall a b, cmp b a = CompOpp (cmp a b))
  (cmp_trans : forall a b c, cmp a b = Gt -> cmp b c <> Lt -> cmp a c = Gt)
  (embed_query : string -> list V) (cosine : list V -> list V -> Score)
  (chunks : list string) (user_question : string) :
  let score c := cosine (embed_query user_question) (embed_query c) in
  (chunks = [] -> most_relevant_chunk cmp embed_query cosine chunks user_question = None) /\
  (chunks <> [] ->
   exists i c,
     most_relevant_chunk cmp embed_query cosine chunks user_question = Some c /\
     nth_error chunks i = Some c /\
     (forall c', In c' chunks -> cmp (score c) (score c') <> Lt) /\
     (forall j c', j < i -> nth_error chunks j = Some c' -> cmp (score c') (score c) = Lt)).
Proof.
  intros score. split; [intros ->; reflexivity|]. intros Hne.
  unfold most_relevant_chunk. rewrite map_map.
  destruct (argmax_spec Score cmp cmp_sym cmp_trans (map score chunks))
    as (i & x & Ha & Hx & Hge & Hlt).
  { destruct chunks; simpl; congruence. }
  fold score. rewrite Ha.
  rewrite nth_error_map in Hx.
  destruct (nth_error chunks i) as [c|] eqn:Hc; [|discriminate].
  simpl in Hx. injection Hx as <-.
  exists i, c. split; [reflexivity|]. split; [exact Hc|]. split.
  - intros c' Hin. apply Hge. apply in_map. exact Hin.
  - intros j c' Hj Hc'. apply (Hlt j); [exact Hj|].
    rewrite nth_error_map, Hc'. reflexivity.
Qed.

Module TextFacts.
Import Notebook.

Lemma length_append (a b : string) :
  String.length (a ++ b) = String.length a + String.length b.
Proof. induction a as [|c a IH]; simpl; [reflexivity | rewrite IH; reflexivity]. Qed.

Lemma chars_append (a b : string) :
  list_ascii_of_string (a ++ b) = list_ascii_of_string a ++ list_ascii_of_string b.
Proof. induction a as [|c a IH]; simpl; [reflexivity | rewrite IH; reflexivity]. Qed.

Lemma join_length (sep : string) (l : list string) :
  String.length (join sep l) =
  list_sum (map String.length l) + (List.length l - 1) * String.length sep.
Proof.
  induction l as [|x l IH]; [reflexivity|].
  destruct l as [|y l']; simpl; [lia|].
  simpl in IH. rewrite !length_append, IH. nia.
Qed.

Lemma nth_row_documents (split_text : string -> list string) (r : Row) (i : nat)
  (doc : Document) :
  nth_error (row_documents split_text r) i = Some doc ->
  exists t, Transcript r = Some t /\ i < List.length (split_text t) /\
    doc = mkDocument
            (header r (S i) (List.length (split_text t))
               ++ nth i (split_text t) EmptyString)%string
            [("source"%string, "local"%string)].
Proof.
  unfold row_documents. destruct (Transcript r) as [t|]; [|destruct i; discriminate].
  rewrite nth_error_map, nth_error_seq.
  destruct (Nat.ltb_spec i (List.length (split_text t))) as [Hlt | Hge]; [|discriminate].
  simpl. intros Hd. injection Hd as <-. exists t.
  rewrite Nat.sub_0_r. auto.
Qed.

Lemma decimal_aux_app (fuel n : nat) (acc : string) :
  list_ascii_of_string (decimal_aux fuel n acc) =
  list_ascii_of_string (decimal_aux fuel n EmptyString) ++ list_ascii_of_string acc.
Proof.
  revert n acc. induction fuel as [|fuel IH]; intros n acc; simpl; [reflexivity|].
  destruct (n <? 10); simpl; [reflexivity|].
  rewrite IH, (IH (n / 10) (String _ EmptyString)), <- app_assoc. reflexivity.
Qed.

Lemma digit_of_ascii (k : nat) :
  k < 10 -> nat_of_ascii (ascii_of_nat (48 + k)) = 48 + k.
Proof. intros Hk. apply nat_ascii_embedding. lia. Qed.

Lemma digits_value_snoc (ds : list ascii) (c : ascii) :
  digits_value (ds ++ [c]) = 10 * digits_value ds + (nat_of_ascii c - 48).
Proof. unfold digits_value. rewrite fold_left_app. reflexivity. Qed.

Lemma decimal_aux_value (fuel n : nat) :
  n < fuel -> digits_value (list_ascii_of_string (decimal_aux fuel n EmptyString)) = n.
Proof.
  revert n. induction fuel as [|fuel IH]; intros n Hn; [lia|].
  cbn [decimal_aux].
  pose proof (Nat.mod_upper_bound n 10 ltac:(lia)) as Hm.
  destruct (Nat.ltb_spec n 10) as [Hlt | Hge].
  - change (digits_value [ascii_of_nat (48 + n mod 10)] = n).
    rewrite <- (app_nil_l [_]), digits_value_snoc, digit_of_ascii by exact Hm.
    rewrite Nat.mod_small by exact Hlt. unfold digits_value. cbn [fold_left]. lia.
  - rewrite decimal_aux_app.
    change (list_ascii_of_string (String (ascii_of_nat (48 + n mod 10)) EmptyString))
      with [ascii_of_nat (48 + n mod 10)].
    rewrite digits_value_snoc, digit_of_ascii by exact Hm.
    rewrite IH by (apply Nat.lt_le_trans with n; [apply Nat.div_lt |]; lia).
    pose proof (Nat.div_mod_eq n 10). lia.
Qed.

Lemma decimal_inj (n m : nat) : decimal n = decimal m -> n = m.
Proof.
  unfold decimal. intros H.
  rewrite <- (decimal_aux_value (S n) n), <- (decimal_aux_value (S m) m) by lia.
  rewrite H. reflexivity.
Qed.

Lemma decimal_aux_digits (fuel n : nat) (acc : string) :
  Forall is_digit (list_ascii_of_string acc) ->
  Forall is_digit (list_ascii_of_string (decimal_aux fuel n acc)).
Proof.
  revert n acc. induction fuel as [|fuel IH]; intros n acc Hacc; cbn [decimal_aux]; [exact Hacc|].
  assert (Hd : Forall is_digit
                 (list_ascii_of_string (String (ascii_of_nat (48 + n mod 10)) acc))).
  { cbn [list_ascii_of_string]. constructor; [|exact Hacc]. unfold is_digit.
    pose proof (Nat.mod_upper_bound n 10 ltac:(lia)).
    rewrite digit_of_ascii by assumption. lia. }
  destruct (n <? 10); [exact Hd | apply IH; exact Hd].
Qed.

Lemma decimal_digits (n : nat) : Forall is_digit (list_ascii_of_string (decimal n)).
Proof. apply decimal_aux_digits. constructor. Qed.

(** Two digit strings each followed by the same non-digit separator split a
    string at the same place. *)
Lemma digits_prefix_eq (a a' x y : list ascii) (sp : ascii) :
  Forall is_digit a -> Forall is_digit a' -> ~ is_digit sp ->
  a ++ sp :: x = a' ++ sp :: y -> a = a'.
Proof.
  revert a'. induction a as [|c a IH]; intros a' Ha Ha' Hsp H;
    destruct a' as [|c' a']; simpl in H; auto.
  - injection H as <- _. inversion Ha'. contradiction.
  - injection H as -> _. inversion Ha. contradiction.
  - injection H as -> H. inversion Ha; inversion Ha'. f_equal. eauto.
Qed.

Lemma append_empty_r (a : string) : (a ++ EmptyString)%string = a.
Proof. induction a as [|c a IH]; simpl; [reflexivity | rewrite IH; reflexivity]. Qed.

Lemma append_assoc_str (a b c : string) : (a ++ (b ++ c))%string = ((a ++ b) ++ c)%string.
Proof. induction a as [|x a IH]; simpl; [reflexivity | rewrite IH; reflexivity]. Qed.

(** Every item occurs verbatim in the joined string. *)
Lemma join_infix (sep x : string) (l : list string) :
  In x l -> exists pre post, join sep l = (pre ++ x ++ post)%string.
Proof.
  induction l as [|x0 l IH]; [intros []|]. intros Hin.
  destruct l as [|y l'].
  - destruct Hin as [<- | []]. exists EmptyString, EmptyString.
    simpl. rewrite append_empty_r. reflexivity.
  - change (join sep (x0 :: y :: l')) with (x0 ++ sep ++ join sep (y :: l'))%string.
    destruct Hin as [<- | Hin].
    + exists EmptyString, (sep ++ join sep (y :: l'))%string. reflexivity.
    + destruct (IH Hin) as (pre & post & ->).
      exists (x0 ++ sep ++ pre)%string, post.
      rewrite !append_assoc_str. reflexivity.
Qed.

End TextFacts.

Import TextFacts.

(** X3.  The excerpts passed to the model (cell 32) are the contents of at
    most the first three retrieved documents, so their length is the sum of
    those contents' lengths plus one 58-character separator between each
    two of them (and the empty string when nothing was retrieved). *)
Theorem X3_relevant_excerpts_length (relevent_docs : list Document) :
  String.length excerpt_separator = 58 /\
  String.length (relevant_excerpts relevent_docs) =
    list_sum (map (fun d => String.length (page_content d)) (firstn 3 relevent_docs))
    + (Nat.min 3 (List.length relevent_docs) - 1) * 58.
Proof.
  split; [reflexivity|]. unfold relevant_excerpts.
  rewrite join_length, map_map, length_map, length_firstn. reflexivity.
Qed.

(** X4.  The displayed excerpts ([replace("\\n", "<br>")]) contain no
    newline; each newline becomes the four characters "<br>", so the length
    grows by three per newline; a string without newline is shown as is. *)
Theorem X4_replace_newline (s : string) :
  ~ In (ascii_of_nat 10) (list_ascii_of_string (replace_newline s)) /\
  String.length (replace_newline s) =
    String.length s + 3 * count_occ ascii_dec (list_ascii_of_string s) (ascii_of_nat 10) /\
  (~ In (ascii_of_nat 10) (list_ascii_of_string s) -> replace_newline s = s).
Proof.
  induction s as [|c s IH]; [simpl; tauto|].
  destruct IH as (IH1 & IH2 & IH3).
  change (list_ascii_of_string (String c s)) with (c :: list_ascii_of_string s).
  cbn [count_occ String.length].
  destruct (Ascii.eqb_spec c (ascii_of_nat 10)) as [-> | Hc].
  - assert (E : replace_newline (String (ascii_of_nat 10) s) =
                ("<br>" ++ replace_newline s)%string)
      by (cbn [replace_newline]; rewrite Ascii.eqb_refl; reflexivity).
    rewrite E, chars_append, length_append.
    destruct (ascii_dec (ascii_of_nat 10) (ascii_of_nat 10)); [|congruence].
    split; [|split].
    + intros H. apply in_app_or in H. destruct H as [H | H]; [|exact (IH1 H)].
      simpl in H. intuition discriminate.
    + change (String.length "<br>") with 4. lia.
    + intros Hn. exfalso. apply Hn. left. reflexivity.
  - assert (E : replace_newline (String c s) = String c (replace_newline s))
      by (cbn [replace_newline]; apply Ascii.eqb_neq in Hc; rewrite Hc; reflexivity).
    rewrite E.
    change (list_ascii_of_string (String c (replace_newline s)))
      with (c :: list_ascii_of_string (replace_newline s)).
    cbn [String.length].
    destruct (ascii_dec c (ascii_of_nat 10)); [contradiction|].
    split; [|split; [lia|]].
    + intros [H | H]; [congruence | exact (IH1 H)].
    + intros Hn. rewrite IH3; [reflexivity|]. intros H. apply Hn. right. exact H.
Qed.

(** X6.  Two different documents made from one row never have the same
    content, even when the splitter returns equal chunks: their headers name
    different chunk numbers. *)
Theorem X6_row_documents_distinct (split_text : string -> list string) (r : Row)
  (i j : nat) (di dj : Document) :
  nth_error (row_documents split_text r) i = Some di ->
  nth_error (row_documents split_text r) j = Some dj ->
  i <> j -> page_content di <> page_content dj.
Proof.
  intros Hi Hj Hij Heq.
  destruct (nth_row_documents split_text r i di Hi) as (t & Ht & _ & ->).
  destruct (nth_row_documents split_text r j dj Hj) as (t' & Ht' & _ & ->).
  rewrite Ht in Ht'. injection Ht' as <-. cbn [page_content] in Heq.
  apply (f_equal list_ascii_of_string) in Heq. unfold header in Heq.
  rewrite !chars_append in Heq. rewrite <- !app_assoc in Heq.
  repeat (apply app_inv_head in Heq).
  change (list_ascii_of_string " of ") with
    (" "%char :: list_ascii_of_string "of ") in Heq.
  apply digits_prefix_eq in Heq;
    [| apply decimal_digits | apply decimal_digits
     | unfold is_digit; vm_compute; lia].
  apply (f_equal string_of_list_ascii) in Heq.
  rewrite !string_of_list_ascii_of_string in Heq.
  apply decimal_inj in Heq. lia.
Qed.

(** X7.  The question sent to the model (cell 33) is a system message
    followed by a user message that starts with "User Question: " and the
    question, and that contains the content of each of the first three
    retrieved documents verbatim. *)
Theorem X7_user_message_contains_top_excerpts (user_question : string)
  (relevent_docs : list Document) :
  map role (chat_messages user_question (relevant_excerpts relevent_docs))
    = ["system"%string; "user"%string] /\
  exists u,
    nth_error (chat_messages user_question (relevant_excerpts relevent_docs)) 1 = Some u /\
    (exists rest, content u = ("User Question: " ++ user_question ++ rest)%string) /\
    (forall d, In d (firstn 3 relevent_docs) ->
       exists pre post, content u = (pre ++ page_content d ++ post)%string).
Proof.
  split; [reflexivity|]. eexists. split; [reflexivity|]. cbn [content]. split.
  - eexists. rewrite append_assoc_str. reflexivity.
  - intros d Hd. unfold relevant_excerpts.
    destruct (join_infix excerpt_separator (page_content d)
                (map page_content (firstn 3 relevent_docs)) (in_map _ _ _ Hd))
      as (pre & post & ->).
    exists ("User Question: " ++ user_question ++ newline ++ newline ++
            "Relevant Speech Excerpt(s):" ++ newline ++ newline ++ pre)%string, post.
    rewrite !append_assoc_str. reflexivity.
Qed.

(** ** Witnesses of the further properties *)

Lemma Z_compare_gt_trans (a b c : Z) :
  Z.compare a b = Gt -> Z.compare b c <> Lt -> Z.compare a c = Gt.
Proof.
  rewrite Z.compare_gt_iff, Z.compare_lt_iff. intros H1 H2.
  apply Z.compare_gt_iff. lia.
Qed.

Lemma X1_argmax_first_maximum_witness :
  argmax Z.compare [1; 5; 3; 5; 2]%Z = Some 1 /\
  nth_error [1; 5; 3; 5; 2]%Z 1 = Some 5%Z /\
  (forall y, In y [1; 5; 3; 5; 2]%Z -> Z.compare 5 y <> Lt).
Proof.
  destruct (proj2 (X1_argmax_first_maximum Z.compare Z.compare_antisym
                     Z_compare_gt_trans [1; 5; 3; 5; 2]%Z) ltac:(discriminate))
    as (i & x & Ha & Hn & Hmax & _).
  vm_compute in Ha. injection Ha as <-.
  vm_compute in Hn. injection Hn as <-.
  split; [reflexivity | split; [reflexivity | exact Hmax]].
Defined.

Lemma X2_most_relevant_chunk_is_first_best_witness :
  let embed_query := fun s => [Z.of_nat (String.length s)] in
  most_relevant_chunk Z.compare embed_query dotZ
    ["a"; "bb"; "c"]%string "q"%string = Some "bb"%string /\
  (forall c', In c' ["a"; "bb"; "c"]%string ->
     Z.compare (dotZ (embed_query "q"%string) (embed_query "bb"%string))
               (dotZ (embed_query "q"%string) (embed_query c')) <> Lt).
Proof.
  intros embed_query.
  destruct (proj2 (X2_most_relevant_chunk_is_first_best Z.compare Z.compare_antisym
                     Z_compare_gt_trans embed_query dotZ
                     ["a"; "bb"; "c"]%string "q"%string) ltac:(discriminate))
    as (i & c & Hm & Hn & Hbest & _).
  assert (Hc : c = "bb"%string).
  { vm_compute in Hm. injection Hm as <-. reflexivity. }
  subst c. split; [exact Hm | exact Hbest].
Defined.

Lemma X6_row_documents_distinct_witness :
  exists d0 d1,
    nth_error (row_documents (fun t => [t; t])
      (speech_row "Inaugural Address" (Some "text"%string))) 0 = Some d0 /\
    nth_error (row_documents (fun t => [t; t])
      (speech_row "Inaugural Address" (Some "text"%string))) 1 = Some d1 /\
    page_content d0 <> page_content d1.
Proof.
  eexists. eexists. split; [reflexivity | split; [reflexivity|]].
  apply (X6_row_documents_distinct (fun t => [t; t])
           (speech_row "Inaugural Address" (Some "text"%string)) 0 1);
    [reflexivity | reflexivity | discriminate].
Defined.
